(** * Texture definitions and shadow-node construction of the OGRE compositor

    A shallow embedding of
    - [CompositorShadowNode::CompositorShadowNode]
      (OgreMain/src/Compositor/OgreCompositorShadowNode.cpp), and
    - [TextureDefinitionBase] (OgreMain/include/Compositor/OgreTextureDefinition.h),
      whose member function bodies are not part of the sources at hand and are
      modelled from the specification. *)

From Stdlib Require Import Ascii String List Arith Lia ZArith QArith.
From stdpp Require Import base gmap strings list.

Import ListNotations.

(** [IdString] is an interned symbol; interning identifies equal strings. *)
Definition IdString := string.

(** Decimal rendering of a [size_t], as [StringConverter::toString]. *)
Fixpoint toString_aux (fuel n : nat) (acc : string) : string :=
  match fuel with
  | 0 => acc
  | S f =>
      let acc' := String (ascii_of_nat (48 + n mod 10)) acc in
      if n <? 10 then acc' else toString_aux f (n / 10) acc'
  end.

Definition toString (n : nat) : string := toString_aux (S n) n EmptyString.

(** Reading a decimal string back, left to right. *)
Definition digit_value (c : ascii) : nat := nat_of_ascii c - 48.

Fixpoint decimal_value_aux (v : nat) (s : string) : nat :=
  match s with
  | EmptyString => v
  | String c s' => decimal_value_aux (10 * v + digit_value c) s'
  end.

(** [TextureDefinition::BoolSetting]: [Undefined = 0, False, True]. *)
Inductive BoolSetting := Undefined | False_ | True_.

Definition BoolSetting_value (b : BoolSetting) : nat :=
  match b with Undefined => 0 | False_ => 1 | True_ => 2 end.

Module ShadowNode.

Definition IdType := nat.
Definition PixelFormat := nat.

(** C++ conversion of an integral (or unscoped enum) value to [bool]. *)
Definition cpp_bool_of (n : nat) : bool := negb (Nat.eqb n 0).

(** Modelled from the spec: the shadow-map texture definition
    ([CompositorShadowNodeDef::ShadowMapTexDefVec] element, whose header is
    not among the sources), "conceptually a TextureDefinition": name, size,
    format list, FSAA flag and the tri-state gamma-write setting. *)
Record ShadowTextureDefinition := {
  name : IdString;
  width : nat;
  height : nat;
  formatList : list PixelFormat;
  fsaa : bool;
  hwGammaWrite : BoolSetting
}.

(** Arguments of [TextureManager::createManual] that vary per call
    (group = INTERNAL, type = TEX_TYPE_2D, mipmaps = 0, usage = TU_RENDERTARGET
    and loader = 0 are constants of every call site). *)
Record TexRequest := {
  rq_name : string;
  rq_width : nat;
  rq_height : nat;
  rq_format : PixelFormat;
  rq_hwGammaCorrection : bool;
  rq_fsaa : bool
}.

(** A [TexturePtr] is identified by its resource name. *)
Inductive TexturePtr := Tex (texName : string).

(** The render target a channel writes to: the render texture of a texture
    ([tex->getBuffer()->getRenderTarget()]) or a multi render target. *)
Inductive RenderTarget :=
| RT_Texture (t : TexturePtr)
| RT_MRT (mrtName : string).

Record CompositorChannel := {
  target : RenderTarget;
  textures : list TexturePtr
}.

(** Calls made on the external collaborators, in the order they happen. *)
Inductive Event :=
| EvCreateManual (rq : TexRequest)
| EvCreateMultiRenderTarget (mrtName : string)
| EvBindSurface (mrtName : string) (rtNum : nat) (rt : RenderTarget)
| EvInitializePasses (localTextures : list CompositorChannel).

Inductive Exn := BackendAllocationError.

(** State: the log of collaborator calls. An exception carries the state
    reached when it was raised (nothing is rolled back). *)
Definition M (A : Type) : Type := list Event -> (Exn * list Event) + (A * list Event).

Definition ret {A} (a : A) : M A := fun s => inr (a, s).

Definition bind {A B} (m : M A) (k : A -> M B) : M B :=
  fun s => match m s with
           | inl e => inl e
           | inr (a, s') => k a s'
           end.

Notation "x <- m ;; k" := (bind m (fun x => k))
  (at level 100, m at next level, right associativity).

Section Construction.

(** [(itor->name + IdString( id )).getFriendlyText()]: [IdString]'s
    operators are not among the sources, so the base resource name is a
    parameter of the construction. *)
Variable textureName_of : IdString -> IdType -> string.

(** The backend may raise on any of its calls (texture creation, MRT
    creation, surface binding), depending on its state. *)
Variable createManual_fails : list Event -> TexRequest -> bool.
Variable createMultiRenderTarget_fails : list Event -> string -> bool.
Variable bindSurface_fails : list Event -> string -> nat -> RenderTarget -> bool.

Definition createManual (rq : TexRequest) : M TexturePtr :=
  fun s => if createManual_fails s rq then inl (BackendAllocationError, s)
           else inr (Tex (rq_name rq), s ++ [EvCreateManual rq]).

Definition createMultiRenderTarget (n : string) : M string :=
  fun s => if createMultiRenderTarget_fails s n then inl (BackendAllocationError, s)
           else inr (n, s ++ [EvCreateMultiRenderTarget n]).

Definition bindSurface (mrt : string) (rtNum : nat) (rt : RenderTarget) : M unit :=
  fun s => if bindSurface_fails s mrt rtNum rt then inl (BackendAllocationError, s)
           else inr (tt, s ++ [EvBindSurface mrt rtNum rt]).

Definition initializePasses (localTextures : list CompositorChannel) : M unit :=
  fun s => inr (tt, s ++ [EvInitializePasses localTextures]).

Definition getRenderTarget (t : TexturePtr) : RenderTarget := RT_Texture t.

(** The argument list of both [createManual] call sites: [itor->hwGammaWrite]
    is handed to the [bool hwGammaCorrection] parameter. *)
Definition texRequest (n : string) (d : ShadowTextureDefinition) (f : PixelFormat) : TexRequest :=
  {| rq_name := n; rq_width := width d; rq_height := height d; rq_format := f;
     rq_hwGammaCorrection := cpp_bool_of (BoolSetting_value (hwGammaWrite d));
     rq_fsaa := fsaa d |}.

(** The inner [while( pixIt != pixEn )] loop of the MRT branch. *)
Fixpoint mrt_loop (d : ShadowTextureDefinition) (textureName mrt : string)
    (pix : list PixelFormat) (rtNum : nat) (texs : list TexturePtr) : M (list TexturePtr) :=
  match pix with
  | [] => ret texs
  | f :: rest =>
      tex <- createManual (texRequest (textureName +:+ toString rtNum) d f) ;;
      let rt := getRenderTarget tex in
      _ <- bindSurface mrt rtNum rt ;;
      mrt_loop d textureName mrt rest (S rtNum) (texs ++ [tex])
  end.

(** One iteration of the outer loop: the channel of one definition. *)
Definition build_channel (id : IdType) (d : ShadowTextureDefinition) : M CompositorChannel :=
  let textureName := textureName_of (name d) id in
  if Nat.eqb (length (formatList d)) 1 then
    tex <- createManual (texRequest textureName d (nth 0 (formatList d) 0)) ;;
    let rt := getRenderTarget tex in
    ret {| target := rt; textures := [tex] |}
  else
    mrt <- createMultiRenderTarget textureName ;;
    texs <- mrt_loop d textureName mrt (formatList d) 0 [] ;;
    ret {| target := RT_MRT mrt; textures := texs |}.

(** The outer [while( itor != end )] loop, pushing into [mLocalTextures]. *)
Fixpoint ctor_loop (id : IdType) (defs : list ShadowTextureDefinition)
    (mLocalTextures : list CompositorChannel) : M (list CompositorChannel) :=
  match defs with
  | [] => ret mLocalTextures
  | d :: ds =>
      newChannel <- build_channel id d ;;
      ctor_loop id ds (mLocalTextures ++ [newChannel])
  end.

Record CompositorShadowNode := {
  mId : IdType;
  mLocalTextures : list CompositorChannel
}.

Definition CompositorShadowNode_ctor (id : IdType) (defs : list ShadowTextureDefinition)
    : M CompositorShadowNode :=
  chans <- ctor_loop id defs [] ;;
  _ <- initializePasses chans ;;
  ret {| mId := id; mLocalTextures := chans |}.

(** Closed forms of the channel a definition yields and of the calls made. *)
Definition channel_of (id : IdType) (d : ShadowTextureDefinition) : CompositorChannel :=
  let tn := textureName_of (name d) id in
  if Nat.eqb (length (formatList d)) 1 then
    {| target := RT_Texture (Tex tn); textures := [Tex tn] |}
  else
    {| target := RT_MRT tn;
       textures := map (fun i => Tex (tn +:+ toString i)) (seq 0 (length (formatList d))) |}.

Definition mrt_surface_events (tn : string) (d : ShadowTextureDefinition) (i : nat) (f : PixelFormat)
    : list Event :=
  [EvCreateManual (texRequest (tn +:+ toString i) d f);
   EvBindSurface tn i (RT_Texture (Tex (tn +:+ toString i)))].

Definition channel_events (id : IdType) (d : ShadowTextureDefinition) : list Event :=
  let tn := textureName_of (name d) id in
  if Nat.eqb (length (formatList d)) 1 then
    [EvCreateManual (texRequest tn d (nth 0 (formatList d) 0))]
  else
    EvCreateMultiRenderTarget tn
      :: flat_map (fun '(i, f) => mrt_surface_events tn d i f)
                  (combine (seq 0 (length (formatList d))) (formatList d)).

End Construction.

End ShadowNode.

Module Registry.

(** [TextureDefinitionBase::TextureSource]. *)
Inductive TextureSource :=
| TEXTURE_INPUT
| TEXTURE_LOCAL
| TEXTURE_GLOBAL
| NUM_TEXTURES_SOURCES.

Definition TextureSource_value (ts : TextureSource) : Z :=
  match ts with
  | TEXTURE_INPUT => 0 | TEXTURE_LOCAL => 1 | TEXTURE_GLOBAL => 2 | NUM_TEXTURES_SOURCES => 3
  end.

(** [static_cast<TextureSource>] of a two-bit value. *)
Definition TextureSource_of_value (v : Z) : TextureSource :=
  match v with
  | 0%Z => TEXTURE_INPUT | 1%Z => TEXTURE_LOCAL | 2%Z => TEXTURE_GLOBAL | _ => NUM_TEXTURES_SOURCES
  end.

Inductive RegistryError := NameConflict | NamingConventionViolation | NameNotFound.

(** [TextureDefinitionBase::TextureDefinition]; the two float factors are
    kept as rationals. *)
Record TextureDefinition := {
  td_name : IdString;
  td_width : nat;
  td_height : nat;
  td_widthFactor : Q;
  td_heightFactor : Q;
  td_formatList : list nat;
  td_fsaa : bool;
  td_hwGammaWrite : BoolSetting;
  td_depthBufferId : nat;
  td_fsaaExplicitResolve : bool
}.

(** The constructor [TextureDefinition( IdString _name )]. *)
Definition mkTextureDefinition (n : IdString) : TextureDefinition :=
  {| td_name := n; td_width := 0; td_height := 0; td_widthFactor := 1%Q;
     td_heightFactor := 1%Q; td_formatList := []; td_fsaa := true;
     td_hwGammaWrite := Undefined; td_depthBufferId := 1;
     td_fsaaExplicitResolve := false |}.

Record TextureDefinitionBase := {
  mDefaultLocalTextureSource : TextureSource;
  mLocalTextureDefs : list TextureDefinition;
  mNameToChannelMap : gmap string Z
}.

Definition TextureDefinitionBase_new (defaultSource : TextureSource) : TextureDefinitionBase :=
  {| mDefaultLocalTextureSource := defaultSource; mLocalTextureDefs := [];
     mNameToChannelMap := empty |}.

(** Modelled from the spec: [encodeTexSource] (declared in the header, body
    not among the sources). "pack sourceKind into the low bits and index into
    the remaining high bits of a 32-bit integer": two low bits for the
    source, thirty high bits for the index, truncated to 32 bits. *)
Definition encodeTexSource (index : Z) (ts : TextureSource) : Z :=
  Z.land (Z.lor (Z.shiftl index 2) (TextureSource_value ts)) (Z.ones 32).

(** Modelled from the spec: [decodeTexSource], the inverse unpacking. *)
Definition decodeTexSource (encodedVal : Z) : Z * TextureSource :=
  (Z.shiftr encodedVal 2, TextureSource_of_value (Z.land encodedVal 3)).

Definition has_global_prefix (s : string) : bool := String.prefix "global_" s.

(** The "global_" rule: prefix present but source not global, or prefix
    absent but source global. *)
Definition violates_global_prefix (s : string) (ts : TextureSource) : bool :=
  match ts with
  | TEXTURE_GLOBAL => negb (has_global_prefix s)
  | _ => has_global_prefix s
  end.

(** Modelled from the spec: [addTextureSourceName] (body not among the
    sources). NameConflict if the name is already in the map,
    NamingConventionViolation if the "global_" rule is broken, otherwise
    [encode(index, sourceKind)] is stored under the interned name, which is
    returned. The two checks are made in the order the spec lists them. *)
Definition addTextureSourceName (r : TextureDefinitionBase) (nm : string) (index : Z)
    (ts : TextureSource) : RegistryError + (IdString * TextureDefinitionBase) :=
  match mNameToChannelMap r !! nm with
  | Some _ => inl NameConflict
  | None =>
      if violates_global_prefix nm ts then inl NamingConventionViolation
      else inr (nm, {| mDefaultLocalTextureSource := mDefaultLocalTextureSource r;
                       mLocalTextureDefs := mLocalTextureDefs r;
                       mNameToChannelMap :=
                         <[nm := encodeTexSource index ts]> (mNameToChannelMap r) |})
  end.

(** Modelled from the spec: [getTextureSource]: NameNotFound if absent,
    otherwise the decoded binding. *)
Definition getTextureSource (r : TextureDefinitionBase) (nm : IdString)
    : RegistryError + (Z * TextureSource) :=
  match mNameToChannelMap r !! nm with
  | None => inl NameNotFound
  | Some v => inr (decodeTexSource v)
  end.

(** Modelled from the spec: [addTextureDefinition] registers the name
    through [addTextureSourceName] with the registry's default source and the
    next storage index, then appends a default definition; the index of the
    new definition stands for the returned reference. *)
Definition addTextureDefinition (r : TextureDefinitionBase) (nm : string)
    : RegistryError + (nat * TextureDefinitionBase) :=
  let idx := length (mLocalTextureDefs r) in
  match addTextureSourceName r nm (Z.of_nat idx) (mDefaultLocalTextureSource r) with
  | inl e => inl e
  | inr (hashedName, r') =>
      inr (idx, {| mDefaultLocalTextureSource := mDefaultLocalTextureSource r';
                   mLocalTextureDefs := mLocalTextureDefs r' ++ [mkTextureDefinition hashedName];
                   mNameToChannelMap := mNameToChannelMap r' |})
  end.

End Registry.

(** Concrete inputs used by the witnesses. *)
Module Samples.
Import ShadowNode.

Definition sample_textureName (n : IdString) (id : IdType) : string := n +:+ "/" +:+ toString id.
Definition never_fails_tex (s : list Event) (rq : TexRequest) : bool := false.
Definition never_fails_mrt (s : list Event) (m : string) : bool := false.
Definition never_fails_bind (s : list Event) (m : string) (k : nat) (rt : RenderTarget) : bool := false.

Definition shadow_single : ShadowTextureDefinition :=
  {| name := "shadowA"; width := 1024; height := 1024; formatList := [1];
     fsaa := false; hwGammaWrite := False_ |}.
Definition shadow_mrt : ShadowTextureDefinition :=
  {| name := "shadowB"; width := 512; height := 512; formatList := [1; 2; 3];
     fsaa := true; hwGammaWrite := Undefined |}.
Definition shadow_single2 : ShadowTextureDefinition :=
  {| name := "shadowC"; width := 256; height := 256; formatList := [4];
     fsaa := true; hwGammaWrite := True_ |}.
Definition shadow_empty : ShadowTextureDefinition :=
  {| name := "shadowD"; width := 64; height := 64; formatList := [];
     fsaa := false; hwGammaWrite := Undefined |}.

Definition sample_defs : list ShadowTextureDefinition := [shadow_single; shadow_mrt; shadow_single2].

(** A backend that refuses the texture named [n]. *)
Definition fails_on_name (n : string) (s : list Event) (rq : TexRequest) : bool :=
  String.eqb (rq_name rq) n.

Definition node_registry : Registry.TextureDefinitionBase :=
  Registry.TextureDefinitionBase_new Registry.TEXTURE_LOCAL.
Definition workspace_registry : Registry.TextureDefinitionBase :=
  Registry.TextureDefinitionBase_new Registry.TEXTURE_GLOBAL.

End Samples.

(** Views of the collaborator-call log used to state properties. *)
Module Observations.
Import ShadowNode.

Definition tex_name (t : TexturePtr) : string := match t with Tex n => n end.

Definition created_requests (l : list Event) : list TexRequest :=
  flat_map (fun e => match e with EvCreateManual rq => [rq] | _ => [] end) l.

Definition is_create (e : Event) : bool :=
  match e with EvCreateManual _ => true | _ => false end.
Definition is_create_mrt (e : Event) : bool :=
  match e with EvCreateMultiRenderTarget _ => true | _ => false end.
Definition is_bind (e : Event) : bool :=
  match e with EvBindSurface _ _ _ => true | _ => false end.

Definition count_calls (p : Event -> bool) (l : list Event) : nat := length (List.filter p l).

(** A texture request carries the definition's size and FSAA flag, and asks
    for gamma correction unless the setting is [Undefined]. *)
Definition request_matches (d : ShadowTextureDefinition) (rq : TexRequest) : Prop :=
  rq_width rq = width d /\ rq_height rq = height d /\ rq_fsaa rq = fsaa d /\
  rq_hwGammaCorrection rq = match hwGammaWrite d with Undefined => false | _ => true end.

Section Refusal.

Variable cmf : list Event -> TexRequest -> bool.
Variable cmrtf : list Event -> string -> bool.
Variable cbf : list Event -> string -> nat -> RenderTarget -> bool.

(** Whether the backend refuses the call [e] when the log so far is [s]. *)
Definition refused (s : list Event) (e : Event) : bool :=
  match e with
  | EvCreateManual rq => cmf s rq
  | EvCreateMultiRenderTarget m => cmrtf s m
  | EvBindSurface m k rt => cbf s m k rt
  | EvInitializePasses _ => false
  end.

(** Issue the calls of [plan] in order from the log [s], stopping at the
    first refused one. *)
Fixpoint replay (s : list Event) (plan : list Event) : (Exn * list Event) + list Event :=
  match plan with
  | [] => inr s
  | c :: rest => if refused s c then inl (BackendAllocationError, s) else replay (s ++ [c]) rest
  end.

End Refusal.

End Observations.

Module ShadowNodeFacts.
Import ShadowNode.
Import Observations.

Definition is_init (e : Event) : bool :=
  match e with EvInitializePasses _ => true | _ => false end.

Definition state_of {A} (r : (Exn * list Event) + (A * list Event)) : list Event :=
  match r with inl (_, s') => s' | inr (_, s') => s' end.

(** An action only appends collaborator calls other than [initializePasses]. *)
Definition appends_no_init {A} (m : M A) : Prop :=
  forall s, exists calls, state_of (m s) = s ++ calls /\ Forall (fun e => is_init e = false) calls.

Section Facts.

Variable tn : IdString -> IdType -> string.
Variable cmf : list Event -> TexRequest -> bool.
Variable cmrtf : list Event -> string -> bool.
Variable cbf : list Event -> string -> nat -> RenderTarget -> bool.

Local Abbreviation createManual := (ShadowNode.createManual cmf).
Local Abbreviation createMultiRenderTarget := (ShadowNode.createMultiRenderTarget cmrtf).
Local Abbreviation mrt_loop := (ShadowNode.mrt_loop cmf cbf).
Local Abbreviation build_channel := (ShadowNode.build_channel tn cmf cmrtf cbf).
Local Abbreviation ctor_loop := (ShadowNode.ctor_loop tn cmf cmrtf cbf).
Local Abbreviation ctor := (ShadowNode.CompositorShadowNode_ctor tn cmf cmrtf cbf).
Local Abbreviation channel_of := (ShadowNode.channel_of tn).
Local Abbreviation channel_events := (ShadowNode.channel_events tn).

Lemma mrt_loop_run d t pix : forall k texs s r s',
  mrt_loop d t t pix k texs s = inr (r, s') ->
  r = texs ++ map (fun i => Tex (t +:+ toString i)) (seq k (length pix)) /\
  s' = s ++ flat_map (fun '(i, f) => mrt_surface_events t d i f) (combine (seq k (length pix)) pix).
Proof.
  induction pix as [|f pix IH]; intros k texs s r s' H.
  - cbn in H. inversion H; subst. split; simpl; by rewrite ?app_nil_r.
  - cbn [ShadowNode.mrt_loop] in H. unfold bind, ShadowNode.createManual, bindSurface in H.
    destruct (cmf s _); [discriminate|]. destruct (cbf _ _ _ _); [discriminate|].
    apply IH in H as [-> ->]. cbn [length seq combine flat_map map]. split.
    + by rewrite <- app_assoc.
    + unfold mrt_surface_events, getRenderTarget. simpl. by rewrite <- !app_assoc.
Qed.

Lemma build_channel_run id d s ch s' :
  build_channel id d s = inr (ch, s') ->
  ch = channel_of id d /\ s' = s ++ channel_events id d.
Proof.
  unfold ShadowNode.build_channel, ShadowNode.channel_of, ShadowNode.channel_events.
  destruct (length (formatList d) =? 1).
  - unfold bind, ShadowNode.createManual, ret. destruct (cmf s _); [discriminate|].
    intros H; inversion H; subst. by unfold getRenderTarget.
  - unfold bind, ShadowNode.createMultiRenderTarget, ret. destruct (cmrtf s _); [discriminate|].
    destruct (mrt_loop _ _ _ _ _ _ _) as [[e s2]|[r s2]] eqn:Hl; [discriminate|].
    apply mrt_loop_run in Hl as [-> ->]. intros H; inversion H; subst.
    split; [done|]. by rewrite <- app_assoc.
Qed.

Lemma ctor_loop_run id defs : forall acc s chs s',
  ctor_loop id defs acc s = inr (chs, s') ->
  chs = acc ++ map (channel_of id) defs /\ s' = s ++ flat_map (channel_events id) defs.
Proof.
  induction defs as [|d defs IH]; intros acc s chs s' H.
  - cbn in H. inversion H; subst. by rewrite !app_nil_r.
  - cbn [ShadowNode.ctor_loop] in H. unfold bind in H.
    destruct (build_channel id d s) as [[e s1]|[ch s1]] eqn:Hb; [discriminate|].
    apply build_channel_run in Hb as [-> ->]. apply IH in H as [-> ->].
    cbn [map flat_map]. by rewrite <- !app_assoc.
Qed.

Lemma ctor_run id defs s n s' :
  ctor id defs s = inr (n, s') ->
  mId n = id /\ mLocalTextures n = map (channel_of id) defs /\
  s' = s ++ flat_map (channel_events id) defs ++ [EvInitializePasses (mLocalTextures n)].
Proof.
  unfold ShadowNode.CompositorShadowNode_ctor, bind, initializePasses, ret.
  destruct (ctor_loop id defs [] s) as [[e s1]|[chs s1]] eqn:Hl; [discriminate|].
  apply ctor_loop_run in Hl as [-> ->]. intros H; inversion H; subst. simpl.
  by rewrite <- app_assoc.
Qed.

Lemma appends_no_init_ret {A} (a : A) : appends_no_init (ret a).
Proof. intros s. exists []. by rewrite app_nil_r. Qed.

Lemma appends_no_init_bind {A B} (m : M A) (k : A -> M B) :
  appends_no_init m -> (forall a, appends_no_init (k a)) -> appends_no_init (bind m k).
Proof.
  intros Hm Hk s. unfold bind. destruct (Hm s) as [c1 [E1 F1]].
  destruct (m s) as [[e s1]|[a s1]]; simpl in E1 |- *.
  - by exists c1.
  - destruct (Hk a s1) as [c2 [E2 F2]]. exists (c1 ++ c2).
    rewrite E2, E1, app_assoc. split; [done|]. by apply Forall_app.
Qed.

Lemma appends_no_init_createManual rq : appends_no_init (createManual rq).
Proof.
  intros s. unfold ShadowNode.createManual. destruct (cmf s rq); simpl.
  - exists []. by rewrite app_nil_r.
  - exists [EvCreateManual rq]. split; [done|]. by repeat constructor.
Qed.

Lemma appends_no_init_createMultiRenderTarget m : appends_no_init (createMultiRenderTarget m).
Proof.
  intros s. unfold ShadowNode.createMultiRenderTarget. destruct (cmrtf s m); simpl.
  - exists []. by rewrite app_nil_r.
  - exists [EvCreateMultiRenderTarget m]. split; [done|]. by repeat constructor.
Qed.

Lemma appends_no_init_bindSurface m k rt : appends_no_init (ShadowNode.bindSurface cbf m k rt).
Proof.
  intros s. unfold ShadowNode.bindSurface. destruct (cbf s m k rt); simpl.
  - exists []. by rewrite app_nil_r.
  - exists [EvBindSurface m k rt]. split; [done|]. by repeat constructor.
Qed.

Create HintDb no_init.
#[local] Hint Resolve appends_no_init_ret appends_no_init_bind appends_no_init_createManual
  appends_no_init_createMultiRenderTarget appends_no_init_bindSurface : no_init.

Lemma appends_no_init_mrt_loop d t m pix : forall k texs,
  appends_no_init (mrt_loop d t m pix k texs).
Proof.
  induction pix; intros k texs; cbn [ShadowNode.mrt_loop]; eauto with no_init.
Qed.

Lemma appends_no_init_build_channel id d : appends_no_init (build_channel id d).
Proof.
  unfold ShadowNode.build_channel. destruct (_ =? _);
    eauto using appends_no_init_mrt_loop with no_init.
Qed.

Lemma appends_no_init_ctor_loop id defs : forall acc,
  appends_no_init (ctor_loop id defs acc).
Proof.
  induction defs; intros acc; cbn [ShadowNode.ctor_loop];
    eauto using appends_no_init_build_channel with no_init.
Qed.

Lemma ctor_fail_from_loop id defs s e s' :
  ctor id defs s = inl (e, s') -> ctor_loop id defs [] s = inl (e, s').
Proof.
  unfold ShadowNode.CompositorShadowNode_ctor, bind, initializePasses, ret.
  destruct (ctor_loop id defs [] s) as [[??]|[??]]; intros H; [inversion H; subst; by destruct e, e0|discriminate].
Qed.

Section NeverFails.

Hypothesis Hcm : forall s rq, cmf s rq = false.
Hypothesis Hcmrt : forall s m, cmrtf s m = false.
Hypothesis Hcb : forall s m k rt, cbf s m k rt = false.

Lemma mrt_loop_total d t m pix : forall k texs s,
  exists r s', mrt_loop d t m pix k texs s = inr (r, s').
Proof.
  induction pix; intros k texs s; cbn [ShadowNode.mrt_loop].
  - by eexists _, _.
  - unfold bind, ShadowNode.createManual, bindSurface. rewrite Hcm, Hcb. apply IHpix.
Qed.

Lemma build_channel_total id d s : exists ch s', build_channel id d s = inr (ch, s').
Proof.
  unfold ShadowNode.build_channel, bind, ShadowNode.createManual,
    ShadowNode.createMultiRenderTarget, ret.
  destruct (_ =? _).
  - rewrite Hcm. by eexists _, _.
  - rewrite Hcmrt.
    destruct (mrt_loop_total d (tn (name d) id) (tn (name d) id) (formatList d) 0 []
      (s ++ [EvCreateMultiRenderTarget (tn (name d) id)])) as (r & s' & ->).
    by eexists _, _.
Qed.

Lemma ctor_loop_total id defs : forall acc s, exists chs s', ctor_loop id defs acc s = inr (chs, s').
Proof.
  induction defs as [|d defs IH]; intros acc s; cbn [ShadowNode.ctor_loop].
  - by eexists _, _.
  - unfold bind. destruct (build_channel_total id d s) as (ch & s1 & ->). apply IH.
Qed.

Lemma ctor_total id defs s : exists n s', ctor id defs s = inr (n, s').
Proof.
  unfold ShadowNode.CompositorShadowNode_ctor, bind, initializePasses, ret.
  destruct (ctor_loop_total id defs [] s) as (chs & s1 & ->). by eexists _, _.
Qed.

End NeverFails.

End Facts.

Section Replay.

Variable tn : IdString -> IdType -> string.
Variable cmf : list Event -> TexRequest -> bool.
Variable cmrtf : list Event -> string -> bool.
Variable cbf : list Event -> string -> nat -> RenderTarget -> bool.

Local Abbreviation refused := (Observations.refused cmf cmrtf cbf).
Local Abbreviation replay := (Observations.replay cmf cmrtf cbf).
Local Abbreviation mrt_loop := (ShadowNode.mrt_loop cmf cbf).
Local Abbreviation build_channel := (ShadowNode.build_channel tn cmf cmrtf cbf).
Local Abbreviation ctor_loop := (ShadowNode.ctor_loop tn cmf cmrtf cbf).
Local Abbreviation ctor := (ShadowNode.CompositorShadowNode_ctor tn cmf cmrtf cbf).
Local Abbreviation channel_of := (ShadowNode.channel_of tn).
Local Abbreviation channel_events := (ShadowNode.channel_events tn).

Lemma replay_app s l1 l2 :
  replay s (l1 ++ l2) = match replay s l1 with inl x => inl x | inr s1 => replay s1 l2 end.
Proof.
  revert s. induction l1 as [|c l1 IH]; intros s; [done|]. cbn [app Observations.replay].
  destruct (Observations.refused cmf cmrtf cbf s c); [done|]. apply IH.
Qed.

Lemma mrt_loop_replay d t pix : forall k texs s,
  mrt_loop d t t pix k texs s =
    match replay s (flat_map (fun '(i, f) => mrt_surface_events t d i f) (combine (seq k (length pix)) pix)) with
    | inl x => inl x
    | inr s' => inr (texs ++ map (fun i => Tex (t +:+ toString i)) (seq k (length pix)), s')
    end.
Proof.
  induction pix as [|f pix IH]; intros k texs s.
  - cbn. by rewrite app_nil_r.
  - cbn [ShadowNode.mrt_loop length seq combine flat_map map].
    unfold bind, ShadowNode.createManual, bindSurface, mrt_surface_events, getRenderTarget.
    cbn [app Observations.replay Observations.refused rq_name texRequest].
    destruct (cmf s (texRequest (t +:+ toString k) d f)); [reflexivity|].
    destruct (cbf _ t k _); [reflexivity|].
    cbn [rq_name texRequest]. rewrite IH. by rewrite <- (app_assoc texs).
Qed.

Lemma build_channel_replay id d s :
  build_channel id d s =
    match replay s (channel_events id d) with
    | inl x => inl x
    | inr s' => inr (channel_of id d, s')
    end.
Proof.
  unfold ShadowNode.build_channel, ShadowNode.channel_of, ShadowNode.channel_events.
  destruct (length (formatList d) =? 1).
  - unfold bind, ShadowNode.createManual, ret, getRenderTarget.
    cbn [Observations.replay Observations.refused]. by destruct (cmf s _).
  - unfold bind, ShadowNode.createMultiRenderTarget, ret.
    cbn [Observations.replay Observations.refused]. destruct (cmrtf s _); [done|].
    rewrite mrt_loop_replay. by destruct (Observations.replay _ _ _ _ _).
Qed.

Lemma ctor_loop_replay id defs : forall acc s,
  ctor_loop id defs acc s =
    match replay s (flat_map (channel_events id) defs) with
    | inl x => inl x
    | inr s' => inr (acc ++ map (channel_of id) defs, s')
    end.
Proof.
  induction defs as [|d defs IH]; intros acc s.
  - cbn. by rewrite app_nil_r.
  - cbn [ShadowNode.ctor_loop flat_map map]. unfold bind.
    rewrite build_channel_replay, replay_app.
    destruct (Observations.replay _ _ _ s (ShadowNode.channel_events tn id d)) as [x|s1]; [done|].
    rewrite IH. by rewrite <- app_assoc.
Qed.

Lemma ctor_replay id defs s :
  ctor id defs s =
    match replay s (flat_map (channel_events id) defs) with
    | inl x => inl x
    | inr s' => inr ({| mId := id; mLocalTextures := map (channel_of id) defs |},
                     s' ++ [EvInitializePasses (map (channel_of id) defs)])
    end.
Proof.
  unfold ShadowNode.CompositorShadowNode_ctor, bind, initializePasses, ret.
  rewrite ctor_loop_replay. by destruct (Observations.replay _ _ _ _ _).
Qed.

Lemma replay_inr s l s' :
  replay s l = inr s' ->
  s' = s ++ l /\ forall pre c post, l = pre ++ c :: post -> refused (s ++ pre) c = false.
Proof.
  revert s. induction l as [|c l IH]; intros s H; cbn in H.
  - inversion H; subst. split; [by rewrite app_nil_r|]. intros pre c post Hl.
    by destruct pre.
  - destruct (Observations.refused cmf cmrtf cbf s c) eqn:Ec; [discriminate|].
    apply IH in H as [-> Hacc]. split; [by rewrite <- app_assoc|].
    intros [|c1 pre] c2 post Hl; simpl in Hl; inversion Hl; subst.
    + by rewrite app_nil_r.
    + specialize (Hacc pre c2 post eq_refl). by rewrite <- app_assoc in Hacc.
Qed.

Lemma replay_inl s l e s' :
  replay s l = inl (e, s') ->
  e = BackendAllocationError /\
  exists pre c post, l = pre ++ c :: post /\ s' = s ++ pre /\ refused (s ++ pre) c = true /\
    replay s pre = inr (s ++ pre).
Proof.
  revert s. induction l as [|c l IH]; intros s H; cbn in H; [discriminate|].
  destruct (Observations.refused cmf cmrtf cbf s c) eqn:Ec.
  - inversion H; subst. destruct e. split; [done|]. exists [], c, l. rewrite app_nil_r. by split.
  - apply IH in H as [-> (pre & c1 & post & -> & -> & Hr & Hp)]. split; [done|].
    rewrite <- app_assoc in Hr, Hp.
    exists (c :: pre), c1, post. rewrite <- !app_assoc. split; [done|]. split; [done|].
    split; [done|]. cbn. by rewrite Ec, Hp.
Qed.

Lemma replay_refused pre : forall s c post,
  refused (s ++ pre) c = true -> exists x, replay s (pre ++ c :: post) = inl x.
Proof.
  induction pre as [|a pre IH]; intros s c post H.
  - rewrite app_nil_r in H. cbn. rewrite H. by eexists.
  - cbn. destruct (Observations.refused cmf cmrtf cbf s a); [by eexists|].
    apply IH. by rewrite <- app_assoc.
Qed.

End Replay.

Lemma Forall_flat_map_intro {A B} (P : B -> Prop) (f : A -> list B) (l : list A) :
  (forall x, Forall P (f x)) -> Forall P (flat_map f l).
Proof. intros Hf. induction l; simpl; [constructor|]. apply Forall_app; auto. Qed.

Lemma filter_is_init_nil (l : list Event) :
  Forall (fun e => is_init e = false) l -> List.filter is_init l = [].
Proof. induction 1 as [|e l He _ IH]; simpl; [done|]. by rewrite He. Qed.

Lemma channel_events_no_init tn id d : Forall (fun e => is_init e = false) (channel_events tn id d).
Proof.
  unfold channel_events. destruct (_ =? _); [by repeat constructor|].
  constructor; [done|]. apply Forall_flat_map_intro. intros [i f]. by repeat constructor.
Qed.

Lemma channel_events_mrt tn id d :
  length (formatList d) <> 1 ->
  channel_events tn id d =
    EvCreateMultiRenderTarget (tn (name d) id)
      :: flat_map (fun '(i, f) => mrt_surface_events (tn (name d) id) d i f)
                  (combine (seq 0 (length (formatList d))) (formatList d)).
Proof. intros H. unfold channel_events. by destruct (Nat.eqb_spec (length (formatList d)) 1). Qed.

Lemma channel_of_mrt tn id d :
  length (formatList d) <> 1 ->
  channel_of tn id d =
    {| target := RT_MRT (tn (name d) id);
       textures := map (fun i => Tex (tn (name d) id +:+ toString i))
                       (seq 0 (length (formatList d))) |}.
Proof. intros H. unfold channel_of. by destruct (Nat.eqb_spec (length (formatList d)) 1). Qed.


Lemma skipn_nth_error_cons {A} (l : list A) i x :
  nth_error l i = Some x -> skipn i l = x :: skipn (S i) l.
Proof.
  revert i. induction l as [|y l IH]; intros [|i] H; simpl in H; try discriminate.
  - by injection H as ->.
  - simpl. by apply IH.
Qed.

Import Samples.

(** C1 (evaluation of the code at a failing input): a definition whose
    gamma-write setting is [False] (enumerator value 1) reaches
    [createManual]'s [bool hwGammaCorrection] parameter as [true]. *)
Theorem hwGammaWrite_False_requests_gamma_correction :
  hwGammaWrite shadow_single = False_ /\
  CompositorShadowNode_ctor sample_textureName never_fails_tex never_fails_mrt never_fails_bind 7 [shadow_single] [] =
  inr ({| mId := 7; mLocalTextures := [channel_of sample_textureName 7 shadow_single] |},
       [EvCreateManual {| rq_name := "shadowA/7"; rq_width := 1024; rq_height := 1024;
                          rq_format := 1; rq_hwGammaCorrection := true; rq_fsaa := false |};
        EvInitializePasses [channel_of sample_textureName 7 shadow_single]]).
Proof. split; reflexivity. Qed.

(** C2: construction is all or nothing. Construction fails exactly when
    the backend refuses one of the calls of the full construction; it then
    stops at the first refused call (every earlier call was accepted) and
    yields only the error, no node and no channel list. A node that is
    returned holds the channel of every definition, every call having been
    accepted. *)
Theorem ctor_all_or_nothing tn cmf cmrtf cbf id defs s :
  ((exists e s', CompositorShadowNode_ctor tn cmf cmrtf cbf id defs s = inl (e, s')) <->
     exists pre c post, flat_map (channel_events tn id) defs = pre ++ c :: post /\
                        refused cmf cmrtf cbf (s ++ pre) c = true) /\
  (forall e s', CompositorShadowNode_ctor tn cmf cmrtf cbf id defs s = inl (e, s') ->
     e = BackendAllocationError /\
     exists pre c post, flat_map (channel_events tn id) defs = pre ++ c :: post /\ s' = s ++ pre /\
       refused cmf cmrtf cbf (s ++ pre) c = true /\
       forall pre1 c1 post1, pre = pre1 ++ c1 :: post1 -> refused cmf cmrtf cbf (s ++ pre1) c1 = false) /\
  (forall n s', CompositorShadowNode_ctor tn cmf cmrtf cbf id defs s = inr (n, s') ->
     mLocalTextures n = map (channel_of tn id) defs /\
     length (mLocalTextures n) = length defs /\
     forall pre c post, flat_map (channel_events tn id) defs = pre ++ c :: post ->
       refused cmf cmrtf cbf (s ++ pre) c = false).
Proof.
  rewrite ctor_replay.
  split; [|split].
  - split.
    + intros (e & s' & H).
      destruct (replay cmf cmrtf cbf s _) as [[e1 s1]|s1] eqn:Hr; [|discriminate].
      apply replay_inl in Hr as [_ (pre & c & post & Hl & _ & Hc & _)]. eauto.
    + intros (pre & c & post & Hl & Hc). rewrite Hl.
      destruct (replay_refused cmf cmrtf cbf pre s c post Hc) as [[e s'] ->]. eauto.
  - intros e s' H.
    destruct (replay cmf cmrtf cbf s _) as [[e1 s1]|s1] eqn:Hr; [|discriminate].
    destruct e, e1. injection H as <-.
    apply replay_inl in Hr as [_ (pre & c & post & Hl & -> & Hc & Hp)]. split; [done|].
    exists pre, c, post. do 3 (split; [done|]).
    apply replay_inr in Hp as [_ Hacc]. exact Hacc.
  - intros n s' H.
    destruct (replay cmf cmrtf cbf s _) as [[e1 s1]|s1] eqn:Hr; [discriminate|].
    inversion H; subst. simpl. split; [done|]. split; [by rewrite length_map|].
    apply replay_inr in Hr as [_ Hacc]. exact Hacc.
Qed.

Lemma ctor_all_or_nothing_witness :
  exists e s', CompositorShadowNode_ctor sample_textureName (fails_on_name "shadowB/31") never_fails_mrt
                 never_fails_bind 3 sample_defs [] = inl (e, s').
Proof.
  apply (proj2 (proj1 (ctor_all_or_nothing sample_textureName (fails_on_name "shadowB/31") never_fails_mrt
                         never_fails_bind 3 sample_defs []))).
  exists (firstn 4 (flat_map (channel_events sample_textureName 3) sample_defs)),
    (nth 4 (flat_map (channel_events sample_textureName 3) sample_defs) (EvInitializePasses [])),
    (skipn 5 (flat_map (channel_events sample_textureName 3) sample_defs)).
  split; reflexivity.
Defined.

(** C3: for a definition with more than one format, the channel is an MRT
    whose textures are named base ++ ordinal, one per format in order, and
    the backend sees the MRT creation followed, for each ordinal i, by the
    creation of texture i with format i and its binding as surface i. *)
Theorem ctor_mrt_channel tn cmf cmrtf cbf id defs s n s' i d :
  CompositorShadowNode_ctor tn cmf cmrtf cbf id defs s = inr (n, s') ->
  nth_error defs i = Some d ->
  1 < length (formatList d) ->
  let base := tn (name d) id in
  nth_error (mLocalTextures n) i =
    Some {| target := RT_MRT base;
            textures := map (fun k => Tex (base +:+ toString k)) (seq 0 (length (formatList d))) |} /\
  (exists pre post, s' = pre ++ EvCreateMultiRenderTarget base ::
      flat_map (fun '(k, f) => mrt_surface_events base d k f)
               (combine (seq 0 (length (formatList d))) (formatList d)) ++ post) /\
  length (map (fun k => Tex (base +:+ toString k)) (seq 0 (length (formatList d))))
    = length (formatList d).
Proof.
  intros Hrun Hd Hlen base.
  apply ctor_run in Hrun as (_ & Hl & Hs).
  assert (Hne : length (formatList d) <> 1) by lia.
  split; [|split].
  - rewrite Hl, nth_error_map, Hd. simpl. by rewrite channel_of_mrt.
  - apply nth_error_split in Hd as (l1 & l2 & -> & _).
    rewrite Hs, flat_map_app. cbn [flat_map]. rewrite channel_events_mrt by done.
    exists (s ++ flat_map (channel_events tn id) l1),
           (flat_map (channel_events tn id) l2 ++ [EvInitializePasses (mLocalTextures n)]).
    unfold base. rewrite <- !app_assoc. simpl. by rewrite <- ?app_assoc.
  - by rewrite length_map, length_seq.
Qed.

Lemma ctor_mrt_channel_witness :
  exists n s',
    CompositorShadowNode_ctor sample_textureName never_fails_tex never_fails_mrt never_fails_bind 3 sample_defs [] = inr (n, s') /\
    nth_error (mLocalTextures n) 1 =
      Some {| target := RT_MRT "shadowB/3";
              textures := [Tex "shadowB/30"; Tex "shadowB/31"; Tex "shadowB/32"] |}.
Proof.
  eexists _, _. split; [reflexivity|].
  refine (proj1 (ctor_mrt_channel sample_textureName never_fails_tex never_fails_mrt never_fails_bind 3 sample_defs []
                   _ _ 1 shadow_mrt _ _ _)); [reflexivity|reflexivity|simpl; lia].
Defined.

(** C4: a successful construction records one channel per definition, the
    channel at index i being the one built from definition i. *)
Theorem ctor_one_channel_per_definition tn cmf cmrtf cbf id defs s n s' :
  CompositorShadowNode_ctor tn cmf cmrtf cbf id defs s = inr (n, s') ->
  length (mLocalTextures n) = length defs /\
  forall i d, nth_error defs i = Some d ->
              nth_error (mLocalTextures n) i = Some (channel_of tn id d).
Proof.
  intros Hrun. apply ctor_run in Hrun as (_ & Hl & _). rewrite Hl. split.
  - by rewrite length_map.
  - intros i d Hd. by rewrite nth_error_map, Hd.
Qed.

Lemma ctor_one_channel_per_definition_witness :
  exists n s',
    CompositorShadowNode_ctor sample_textureName never_fails_tex never_fails_mrt never_fails_bind 3 sample_defs [] = inr (n, s') /\
    length (mLocalTextures n) = 3 /\
    nth_error (mLocalTextures n) 2 = Some (channel_of sample_textureName 3 shadow_single2).
Proof.
  eexists _, _. split; [reflexivity|].
  pose proof (ctor_one_channel_per_definition sample_textureName never_fails_tex never_fails_mrt never_fails_bind 3
                sample_defs [] _ _ eq_refl) as [Hlen Hnth].
  split; [exact Hlen|]. apply Hnth. reflexivity.
Defined.

(** C5: [initializePasses] is the last collaborator call of a successful
    construction, made once, with every definition's channel recorded; a
    construction that fails never calls it. *)
Theorem initializePasses_once_after_all_channels tn cmf cmrtf cbf id defs s :
  match CompositorShadowNode_ctor tn cmf cmrtf cbf id defs s with
  | inr (n, s') =>
      mLocalTextures n = map (channel_of tn id) defs /\
      length (mLocalTextures n) = length defs /\
      exists pre, s' = s ++ pre ++ [EvInitializePasses (mLocalTextures n)] /\
                  List.filter is_init pre = []
  | inl (_, s') => exists calls, s' = s ++ calls /\ List.filter is_init calls = []
  end.
Proof.
  destruct (CompositorShadowNode_ctor tn cmf cmrtf cbf id defs s) as [[e s']|[n s']] eqn:H.
  - apply ctor_fail_from_loop in H.
    destruct (appends_no_init_ctor_loop tn cmf cmrtf cbf id defs [] s) as (calls & Ec & Fc).
    rewrite H in Ec. simpl in Ec. exists calls. split; [done|]. by apply filter_is_init_nil.
  - apply ctor_run in H as (_ & Hl & Hs). split; [done|]. split; [by rewrite Hl, length_map|].
    exists (flat_map (channel_events tn id) defs). split; [done|].
    apply filter_is_init_nil, Forall_flat_map_intro, channel_events_no_init.
Qed.

(** C10: an empty format list takes the MRT branch: the construction does
    not fail because of it (it succeeds on a backend that never fails); in a
    successful construction the definition's channel targets an MRT with no
    texture, and the calls made for that definition are the MRT creation
    alone, with no texture created and no surface bound; and a channel of the
    constructed node has a plain render texture as target exactly when its
    definition has one format. *)
Theorem empty_format_list_takes_mrt_branch tn cmf cmrtf cbf id defs s i d :
  nth_error defs i = Some d ->
  formatList d = [] ->
  (exists n s', CompositorShadowNode_ctor tn never_fails_tex never_fails_mrt never_fails_bind id defs s
                  = inr (n, s')) /\
  (forall n s', CompositorShadowNode_ctor tn cmf cmrtf cbf id defs s = inr (n, s') ->
     nth_error (mLocalTextures n) i = Some {| target := RT_MRT (tn (name d) id); textures := [] |} /\
     s' = s ++ flat_map (channel_events tn id) (firstn i defs) ++
          EvCreateMultiRenderTarget (tn (name d) id) ::
          flat_map (channel_events tn id) (skipn (S i) defs) ++ [EvInitializePasses (mLocalTextures n)] /\
     (forall j d' ch, nth_error defs j = Some d' -> nth_error (mLocalTextures n) j = Some ch ->
        ((exists t, target ch = RT_Texture t) <-> length (formatList d') = 1))).
Proof.
  intros Hd Hempty. split.
  - apply ctor_total; done.
  - intros n s' Hrun. apply ctor_run in Hrun as (_ & Hl & Hs).
    split; [|split].
    + rewrite Hl, nth_error_map, Hd. simpl. rewrite channel_of_mrt by (rewrite Hempty; done).
      by rewrite Hempty.
    + rewrite Hs. rewrite <- (firstn_skipn i defs) at 1. rewrite (skipn_nth_error_cons defs i d Hd).
      rewrite flat_map_app. cbn [flat_map].
      rewrite channel_events_mrt by (rewrite Hempty; done). rewrite Hempty. simpl.
      by rewrite <- !app_assoc.
    + intros j d' ch Hj Hch. rewrite Hl, nth_error_map, Hj in Hch. simpl in Hch.
      injection Hch as <-. unfold channel_of.
      destruct (Nat.eqb_spec (length (formatList d')) 1); simpl.
      * split; intros; [done|by eexists].
      * split; [intros [t Ht]; discriminate|intros Hc; contradiction].
Qed.

Lemma empty_format_list_takes_mrt_branch_witness :
  exists n s',
    CompositorShadowNode_ctor sample_textureName never_fails_tex never_fails_mrt never_fails_bind 4
      [shadow_single; shadow_empty] [] = inr (n, s') /\
    nth_error (mLocalTextures n) 1 = Some {| target := RT_MRT "shadowD/4"; textures := [] |}.
Proof.
  destruct (empty_format_list_takes_mrt_branch sample_textureName never_fails_tex never_fails_mrt
              never_fails_bind 4 [shadow_single; shadow_empty] [] 1 shadow_empty eq_refl eq_refl)
    as [[n [s' Hrun]] Hch].
  exists n, s'. split; [exact Hrun|]. exact (proj1 (Hch n s' Hrun)).
Defined.

End ShadowNodeFacts.

Module RegistryFacts.
Import Registry.
Import Samples.
#[local] Open Scope Z_scope.

Lemma testbit_TextureSource_value_high ts n :
  2 <= n -> Z.testbit (TextureSource_value ts) n = false.
Proof. intros Hn. destruct ts; apply Z.bits_above_log2; simpl; lia. Qed.

Lemma testbit_3_high n : 2 <= n -> Z.testbit 3 n = false.
Proof. intros Hn. apply Z.bits_above_log2; simpl; lia. Qed.

Lemma TextureSource_of_value_value ts : TextureSource_of_value (TextureSource_value ts) = ts.
Proof. by destruct ts. Qed.

Lemma decode_encode_in_range (index : Z) (ts : TextureSource) :
  0 <= index < 2 ^ 30 ->
  decodeTexSource (encodeTexSource index ts) = (index, ts).
Proof.
  intros Hi. unfold decodeTexSource, encodeTexSource. f_equal.
  - apply Z.bits_inj'. intros n Hn.
    rewrite Z.shiftr_spec, Z.land_spec, Z.lor_spec, Z.shiftl_spec by lia.
    rewrite testbit_TextureSource_value_high, orb_false_r by lia.
    replace (n + 2 - 2) with n by lia.
    destruct (Z.lt_ge_cases (n + 2) 32).
    + rewrite Z.ones_spec_low by lia. by rewrite andb_true_r.
    + rewrite Z.ones_spec_high by lia. rewrite andb_false_r.
      symmetry. destruct (Z.eq_dec index 0) as [->|Hnz]; [apply Z.testbit_0_l|].
      apply Z.bits_above_log2; [lia|].
      assert (Z.log2 index < 30) by (apply Z.log2_lt_pow2; lia). lia.
  - rewrite <- (TextureSource_of_value_value ts) at 2. f_equal.
    apply Z.bits_inj'. intros n Hn.
    rewrite !Z.land_spec, Z.lor_spec.
    destruct (Z.lt_ge_cases n 2).
    + rewrite Z.shiftl_spec_low, Z.ones_spec_low by lia.
      assert (n = 0 \/ n = 1) as [-> | ->] by lia; by destruct ts.
    + rewrite testbit_3_high, testbit_TextureSource_value_high by lia.
      by rewrite !andb_false_r.
Qed.

(** C6: [decodeTexSource] inverts [encodeTexSource] on every index of the
    thirty-bit supported range and every source kind. *)
Theorem decodeTexSource_encodeTexSource (index : Z) (ts : TextureSource) :
  0 <= index < 2 ^ 30 ->
  decodeTexSource (encodeTexSource index ts) = (index, ts).
Proof. apply decode_encode_in_range. Qed.

Lemma decodeTexSource_encodeTexSource_witness :
  decodeTexSource (encodeTexSource 12345 TEXTURE_GLOBAL) = (12345, TEXTURE_GLOBAL).
Proof. apply decodeTexSource_encodeTexSource. lia. Defined.

(** C7: [addTextureSourceName] fails with NameConflict exactly when the name
    is already in this registry's map; a fresh, well-prefixed name is
    accepted by any registry where it is fresh, independently of the others,
    storing [encodeTexSource index ts] under the interned name it returns. *)
Theorem addTextureSourceName_NameConflict (r : TextureDefinitionBase) (nm : string)
    (index : Z) (ts : TextureSource) :
  (addTextureSourceName r nm index ts = inl NameConflict <-> is_Some (mNameToChannelMap r !! nm)) /\
  (forall r2 : TextureDefinitionBase,
     mNameToChannelMap r !! nm = None ->
     mNameToChannelMap r2 !! nm = None ->
     violates_global_prefix nm ts = false ->
     addTextureSourceName r nm index ts =
       inr (nm, {| mDefaultLocalTextureSource := mDefaultLocalTextureSource r;
                   mLocalTextureDefs := mLocalTextureDefs r;
                   mNameToChannelMap := <[nm := encodeTexSource index ts]> (mNameToChannelMap r) |}) /\
     exists r2', addTextureSourceName r2 nm index ts = inr (nm, r2') /\
                 mNameToChannelMap r2' !! nm = Some (encodeTexSource index ts)).
Proof.
  unfold addTextureSourceName. split.
  - destruct (mNameToChannelMap r !! nm) eqn:E.
    + split; [by eauto|done].
    + destruct (violates_global_prefix nm ts); split; (done || by intros []).
  - intros r2 H1 H2 Hv. rewrite H1, H2, Hv. split; [done|].
    eexists. split; [done|]. simpl. apply lookup_insert_eq.
Qed.

Lemma addTextureSourceName_NameConflict_witness :
  mNameToChannelMap node_registry !! "rt0" = None /\
  mNameToChannelMap workspace_registry !! "rt0" = None /\
  violates_global_prefix "rt0" TEXTURE_LOCAL = false /\
  (addTextureSourceName node_registry "rt0" 3 TEXTURE_LOCAL =
     inr ("rt0", {| mDefaultLocalTextureSource := TEXTURE_LOCAL;
                    mLocalTextureDefs := [];
                    mNameToChannelMap := <["rt0" := encodeTexSource 3 TEXTURE_LOCAL]> empty |}) /\
   exists r2', addTextureSourceName workspace_registry "rt0" 3 TEXTURE_LOCAL = inr ("rt0", r2') /\
               mNameToChannelMap r2' !! "rt0" = Some (encodeTexSource 3 TEXTURE_LOCAL)).
Proof.
  split; [reflexivity|]. split; [reflexivity|]. split; [reflexivity|].
  apply (proj2 (addTextureSourceName_NameConflict node_registry "rt0" 3 TEXTURE_LOCAL)
           workspace_registry); reflexivity.
Defined.

(** C8: the "global_" rule is enforced by [addTextureSourceName] (and by
    [addTextureDefinition], with the registry's default source), at
    registration only. The rule is broken by a "global_" name under a
    non-global source, or by a name without the prefix under TEXTURE_GLOBAL.
    NamingConventionViolation is reported only when the rule is broken, and a
    registration that breaks it never succeeds, whatever the registry holds.
    For a name the registry does not hold yet, NamingConventionViolation is
    reported exactly when the rule is broken and the matching combinations
    succeed. The lookup [getTextureSource] never reports it. *)
Theorem addTextureSourceName_naming_rule (r : TextureDefinitionBase) (nm : string)
    (index : Z) (ts : TextureSource) :
  (violates_global_prefix nm ts = true <->
     (has_global_prefix nm = true /\ ts <> TEXTURE_GLOBAL) \/
     (has_global_prefix nm = false /\ ts = TEXTURE_GLOBAL)) /\
  (addTextureSourceName r nm index ts = inl NamingConventionViolation ->
     violates_global_prefix nm ts = true) /\
  (violates_global_prefix nm ts = true ->
     forall hn r', addTextureSourceName r nm index ts <> inr (hn, r')) /\
  (addTextureDefinition r nm = inl NamingConventionViolation ->
     violates_global_prefix nm (mDefaultLocalTextureSource r) = true) /\
  (violates_global_prefix nm (mDefaultLocalTextureSource r) = true ->
     forall k r', addTextureDefinition r nm <> inr (k, r')) /\
  (mNameToChannelMap r !! nm = None ->
     (addTextureSourceName r nm index ts = inl NamingConventionViolation <->
        violates_global_prefix nm ts = true) /\
     (violates_global_prefix nm ts = false ->
        exists r', addTextureSourceName r nm index ts = inr (nm, r')) /\
     (addTextureDefinition r nm = inl NamingConventionViolation <->
        violates_global_prefix nm (mDefaultLocalTextureSource r) = true) /\
     (violates_global_prefix nm (mDefaultLocalTextureSource r) = false ->
        exists k r', addTextureDefinition r nm = inr (k, r'))) /\
  (forall (r0 : TextureDefinitionBase) (nm0 : IdString),
     getTextureSource r0 nm0 <> inl NamingConventionViolation).
Proof.
  unfold addTextureDefinition, addTextureSourceName.
  split; [|split; [|split; [|split; [|split; [|split]]]]].
  - unfold violates_global_prefix.
    destruct ts, (has_global_prefix nm); simpl; intuition (try discriminate; try congruence).
  - destruct (mNameToChannelMap r !! nm); [discriminate|].
    by destruct (violates_global_prefix nm ts).
  - intros Hv hn r'. destruct (mNameToChannelMap r !! nm); [discriminate|]. by rewrite Hv.
  - destruct (mNameToChannelMap r !! nm); [discriminate|].
    by destruct (violates_global_prefix nm _).
  - intros Hv k r'. destruct (mNameToChannelMap r !! nm); [discriminate|]. by rewrite Hv.
  - intros Hfresh. rewrite Hfresh. split; [|split; [|split]].
    + destruct (violates_global_prefix nm ts); split; (done || by intros).
    + intros ->. by eexists.
    + destruct (violates_global_prefix nm _); split; (done || by intros).
    + intros ->. by eexists _, _.
  - intros r0 nm0. unfold getTextureSource. by destruct (mNameToChannelMap r0 !! nm0).
Qed.

Lemma addTextureSourceName_naming_rule_witness :
  mNameToChannelMap node_registry !! "global_sun" = None /\
  addTextureSourceName node_registry "global_sun" 0 TEXTURE_LOCAL = inl NamingConventionViolation /\
  addTextureDefinition workspace_registry "sun" = inl NamingConventionViolation /\
  (exists r', addTextureSourceName workspace_registry "global_sun" 0 TEXTURE_GLOBAL = inr ("global_sun", r')).
Proof.
  split; [reflexivity|]. split; [|split].
  - destruct (addTextureSourceName_naming_rule node_registry "global_sun" 0 TEXTURE_LOCAL)
      as (_ & _ & _ & _ & _ & Hfresh & _).
    destruct (Hfresh eq_refl) as (Hncv & _ & _ & _). apply Hncv. reflexivity.
  - destruct (addTextureSourceName_naming_rule workspace_registry "sun" 0 TEXTURE_GLOBAL)
      as (_ & _ & _ & _ & _ & Hfresh & _).
    destruct (Hfresh eq_refl) as (_ & _ & Hdef & _). apply Hdef. reflexivity.
  - destruct (addTextureSourceName_naming_rule workspace_registry "global_sun" 0 TEXTURE_GLOBAL)
      as (_ & _ & _ & _ & _ & Hfresh & _).
    destruct (Hfresh eq_refl) as (_ & Hok & _ & _). apply Hok. reflexivity.
Defined.

End RegistryFacts.

Module DecimalFacts.

Lemma string_append_nil (b : string) : EmptyString +:+ b = b.
Proof. reflexivity. Qed.

Lemma string_append_cons c (a b : string) : String c a +:+ b = String c (a +:+ b).
Proof. reflexivity. Qed.

Lemma string_append_assoc (a b c : string) : (a +:+ b) +:+ c = a +:+ (b +:+ c).
Proof.
  induction a as [|x a IH]; [done|]. by rewrite !string_append_cons, IH.
Qed.

Lemma toString_aux_acc f : forall n acc,
  toString_aux f n acc = toString_aux f n EmptyString +:+ acc.
Proof.
  induction f as [|f IH]; intros n acc; [done|]. cbn [toString_aux].
  destruct (n <? 10); [done|].
  rewrite (IH _ (String _ acc)), (IH _ (String _ EmptyString)).
  by rewrite string_append_assoc, string_append_cons, string_append_nil.
Qed.

Lemma toString_aux_fuel f : forall g n acc, n < f -> n < g ->
  toString_aux f n acc = toString_aux g n acc.
Proof.
  induction f as [|f IH]; intros g n acc Hf Hg; [lia|].
  destruct g as [|g]; [lia|]. cbn [toString_aux].
  destruct (Nat.ltb_spec n 10); [done|].
  apply IH; apply Nat.lt_le_trans with n; try lia; apply Nat.div_lt; lia.
Qed.

Lemma toString_small n : n < 10 -> toString n = String (ascii_of_nat (48 + n)) EmptyString.
Proof.
  intros Hn. unfold toString. cbn [toString_aux]. rewrite Nat.mod_small by done.
  by destruct (Nat.ltb_spec n 10); [|lia].
Qed.

Lemma toString_step n : 10 <= n ->
  toString n = toString (n / 10) +:+ String (ascii_of_nat (48 + n mod 10)) EmptyString.
Proof.
  intros Hn. unfold toString at 1. cbn [toString_aux].
  destruct (Nat.ltb_spec n 10); [lia|].
  rewrite toString_aux_acc. f_equal.
  unfold toString. apply toString_aux_fuel; [|lia].
  apply Nat.lt_le_trans with n; [apply Nat.div_lt|]; lia.
Qed.

Lemma decimal_value_aux_app x : forall v y,
  decimal_value_aux v (x +:+ y) = decimal_value_aux (decimal_value_aux v x) y.
Proof. induction x; intros v y; rewrite ?string_append_nil, ?string_append_cons; simpl; auto. Qed.

Lemma digit_value_digit k : k < 10 -> digit_value (ascii_of_nat (48 + k)) = k.
Proof. intros Hk. unfold digit_value. rewrite nat_ascii_embedding; lia. Qed.

Lemma decimal_value_toString n : decimal_value_aux 0 (toString n) = n.
Proof.
  induction n as [n IH] using lt_wf_ind.
  destruct (Nat.lt_ge_cases n 10) as [Hs|Hb].
  - rewrite toString_small by done. cbn [decimal_value_aux]. rewrite digit_value_digit; lia.
  - rewrite toString_step, decimal_value_aux_app by done.
    rewrite IH by (apply Nat.div_lt; lia). cbn [decimal_value_aux].
    rewrite digit_value_digit by (apply Nat.mod_upper_bound; lia).
    pose proof (Nat.div_mod n 10). lia.
Qed.

Lemma toString_inj m n : toString m = toString n -> m = n.
Proof.
  intros H. rewrite <- (decimal_value_toString m), <- (decimal_value_toString n). by rewrite H.
Qed.

Lemma append_cancel_l (b x y : string) : b +:+ x = b +:+ y -> x = y.
Proof.
  induction b; rewrite ?string_append_nil, ?string_append_cons; [done|].
  intros H. injection H. auto.
Qed.

End DecimalFacts.

Module ShadowNodeExtras.
Import ShadowNode Observations ShadowNodeFacts DecimalFacts Samples.

Lemma created_requests_app l1 l2 :
  created_requests (l1 ++ l2) = created_requests l1 ++ created_requests l2.
Proof. unfold created_requests. apply flat_map_app. Qed.

Lemma created_requests_mrt_cons m l :
  created_requests (EvCreateMultiRenderTarget m :: l) = created_requests l.
Proof. reflexivity. Qed.

Lemma created_requests_flat_map {A} (f : A -> list Event) l :
  created_requests (flat_map f l) = flat_map (fun x => created_requests (f x)) l.
Proof.
  induction l as [|x l IH]; [done|]. cbn [flat_map]. by rewrite created_requests_app, IH.
Qed.

Lemma in_created_requests rq l : In rq (created_requests l) -> In (EvCreateManual rq) l.
Proof.
  unfold created_requests. rewrite in_flat_map. intros (e & He & Hin).
  destruct e; simpl in Hin; try contradiction. destruct Hin as [<-|[]]. done.
Qed.

Lemma count_calls_app p l1 l2 : count_calls p (l1 ++ l2) = count_calls p l1 + count_calls p l2.
Proof. unfold count_calls. by rewrite List.filter_app, length_app. Qed.

Lemma count_calls_flat_map {A} p (f : A -> list Event) l :
  count_calls p (flat_map f l) = list_sum (map (fun x => count_calls p (f x)) l).
Proof.
  induction l as [|x l IH]; [done|]. cbn [flat_map map list_sum].
  by rewrite count_calls_app, IH.
Qed.

Lemma count_calls_flat_map_const {A} p (f : A -> list Event) c l :
  (forall x, count_calls p (f x) = c) -> count_calls p (flat_map f l) = c * length l.
Proof.
  intros Hc. induction l as [|x l IH]; cbn [flat_map length]; [unfold count_calls; simpl; lia|].
  rewrite count_calls_app, IH, Hc, Nat.mul_succ_r. lia.
Qed.

Lemma texRequest_matches n d f : request_matches d (texRequest n d f).
Proof. unfold request_matches, texRequest. simpl. by destruct (hwGammaWrite d). Qed.

Lemma mrt_requests b d l : forall k,
  created_requests (flat_map (fun '(i, f) => mrt_surface_events b d i f) (combine (seq k (length l)) l))
  = map (fun '(i, f) => texRequest (b +:+ toString i) d f) (combine (seq k (length l)) l).
Proof.
  induction l as [|f l IH]; intros k; [done|].
  cbn [length seq combine flat_map map]. rewrite created_requests_app, IH. done.
Qed.

Lemma mrt_request_formats b d l : forall k,
  map rq_format (map (fun '(i, f) => texRequest (b +:+ toString i) d f) (combine (seq k (length l)) l)) = l.
Proof. induction l as [|f l IH]; intros k; [done|]. simpl. by rewrite IH. Qed.

Lemma mrt_request_names b d l : forall k,
  map rq_name (map (fun '(i, f) => texRequest (b +:+ toString i) d f) (combine (seq k (length l)) l))
  = map (fun i => b +:+ toString i) (seq k (length l)).
Proof. induction l as [|f l IH]; intros k; [done|]. simpl. by rewrite IH. Qed.

Lemma mrt_requests_match b d l k :
  Forall (request_matches d) (map (fun '(i, f) => texRequest (b +:+ toString i) d f) (combine (seq k (length l)) l)).
Proof.
  apply List.Forall_forall. intros rq (x & <- & _)%in_map_iff. destruct x. apply texRequest_matches.
Qed.

Lemma NoDup_map_inj {A B} (g : A -> B) (l : list A) :
  (forall x y, g x = g y -> x = y) -> List.NoDup l -> List.NoDup (map g l).
Proof.
  intros Hg. induction 1 as [|x l Hx _ IH]; simpl; constructor; [|done].
  rewrite in_map_iff. intros (y & Hy & Hin). apply Hg in Hy. subst. contradiction.
Qed.

(** Per definition: the formats, fields and names of the texture requests. *)
Lemma channel_requests tn id d :
  map rq_format (created_requests (channel_events tn id d)) = formatList d /\
  Forall (request_matches d) (created_requests (channel_events tn id d)) /\
  map rq_name (created_requests (channel_events tn id d)) = map tex_name (textures (channel_of tn id d)) /\
  List.NoDup (map tex_name (textures (channel_of tn id d))).
Proof.
  unfold channel_events, channel_of.
  destruct (Nat.eqb_spec (length (formatList d)) 1) as [H1|H1].
  - split; [|split; [|split]].
    + simpl. destruct (formatList d) as [|f [|]]; simpl in H1; [lia|done|lia].
    + repeat constructor. apply texRequest_matches.
    + done.
    + repeat constructor. simpl. tauto.
  - rewrite created_requests_mrt_cons, mrt_requests. split; [|split; [|split]].
    + apply mrt_request_formats.
    + apply mrt_requests_match.
    + rewrite mrt_request_names. simpl. by rewrite map_map.
    + simpl. rewrite map_map. apply NoDup_map_inj; [|apply seq_NoDup].
      intros x y H. by apply toString_inj, (append_cancel_l (tn (name d) id)).
Qed.

Lemma Forall2_map_r {A B} (P : A -> B -> Prop) (g : A -> B) l :
  (forall x, P x (g x)) -> Forall2 P l (map g l).
Proof. intros H. induction l; simpl; constructor; auto. Qed.


Lemma Forall2_map_both {A B C} (P : B -> C -> Prop) (f : A -> B) (g : A -> C) l :
  (forall x, P (f x) (g x)) -> Forall2 P (map f l) (map g l).
Proof. intros H. induction l; simpl; constructor; auto. Qed.

Lemma count_calls_single p e : count_calls p [e] = if p e then 1 else 0.
Proof. unfold count_calls. simpl. by destruct (p e). Qed.

Lemma length_combine_seq {A} k (l : list A) : length (combine (seq k (length l)) l) = length l.
Proof. by rewrite length_combine, length_seq, Nat.min_id. Qed.

Lemma channel_event_counts tn id d :
  count_calls is_create (channel_events tn id d) = length (formatList d) /\
  count_calls is_create_mrt (channel_events tn id d) = (if length (formatList d) =? 1 then 0 else 1) /\
  count_calls is_bind (channel_events tn id d) =
    (if length (formatList d) =? 1 then 0 else length (formatList d)) /\
  count_calls is_init (channel_events tn id d) = 0.
Proof.
  unfold channel_events. destruct (Nat.eqb_spec (length (formatList d)) 1) as [H1|H1].
  - rewrite !count_calls_single. simpl. lia.
  - change (EvCreateMultiRenderTarget ?m :: ?l) with ([EvCreateMultiRenderTarget m] ++ l).
    rewrite !count_calls_app, !count_calls_single.
    rewrite (count_calls_flat_map_const _ _ 1), (count_calls_flat_map_const is_create_mrt _ 0),
      (count_calls_flat_map_const is_bind _ 1), (count_calls_flat_map_const is_init _ 0)
      by (intros [i f]; reflexivity).
    rewrite length_combine_seq. simpl. lia.
Qed.

Section Failures.

Variable tn : IdString -> IdType -> string.
Variable cmf : list Event -> TexRequest -> bool.
Variable cmrtf : list Event -> string -> bool.
Variable cbf : list Event -> string -> nat -> RenderTarget -> bool.

Lemma mrt_loop_fail d t pix : forall k texs s e s',
  ShadowNode.mrt_loop cmf cbf d t t pix k texs s = inl (e, s') ->
  exists calls rest, s' = s ++ calls /\
    flat_map (fun '(i, f) => mrt_surface_events t d i f) (combine (seq k (length pix)) pix)
      = calls ++ rest /\ rest <> [].
Proof.
  induction pix as [|f pix IH]; intros k texs s e s' H; cbn [ShadowNode.mrt_loop] in H.
  - discriminate.
  - unfold bind, ShadowNode.createManual, bindSurface in H.
    cbn [length seq combine flat_map].
    destruct (cmf s _).
    + inversion H; subst. exists [], (mrt_surface_events t d k f ++
        flat_map (fun '(i, f) => mrt_surface_events t d i f) (combine (seq (S k) (length pix)) pix)).
      split; [by rewrite app_nil_r|]. split; [done|]. unfold mrt_surface_events. simpl. congruence.
    + destruct (cbf _ _ _ _).
      { inversion H; subst. exists [EvCreateManual (texRequest (t +:+ toString k) d f)],
          (EvBindSurface t k (RT_Texture (Tex (t +:+ toString k))) ::
           flat_map (fun '(i, f) => mrt_surface_events t d i f) (combine (seq (S k) (length pix)) pix)).
        split; [done|]. split; [done|]. congruence. }
      apply IH in H as (calls & rest & -> & Hf & Hr).
      exists (mrt_surface_events t d k f ++ calls), rest. rewrite Hf.
      split; [|split; [by rewrite app_assoc|done]].
      unfold mrt_surface_events, getRenderTarget. simpl. by rewrite <- !app_assoc.
Qed.

Lemma build_channel_fail id d s e s' :
  ShadowNode.build_channel tn cmf cmrtf cbf id d s = inl (e, s') ->
  exists calls rest, s' = s ++ calls /\ channel_events tn id d = calls ++ rest /\ rest <> [].
Proof.
  unfold ShadowNode.build_channel, channel_events.
  destruct (length (formatList d) =? 1).
  - unfold bind, ShadowNode.createManual, ret. destruct (cmf s _); [|discriminate].
    intros H; inversion H; subst. exists [], [EvCreateManual (texRequest (tn (name d) id) d (nth 0 (formatList d) 0))].
    by rewrite app_nil_r.
  - unfold bind, ShadowNode.createMultiRenderTarget, ret. destruct (cmrtf s _).
    + intros H; inversion H; subst. eexists [], _. by rewrite app_nil_r.
    + destruct (ShadowNode.mrt_loop _ _ _ _ _ _ _ _) as [[e1 s1]|[r s1]] eqn:Hl; [|discriminate].
      intros H; inversion H; subst.
      apply mrt_loop_fail in Hl as (calls & rest & -> & Hf & Hr).
      exists (EvCreateMultiRenderTarget (tn (name d) id) :: calls), rest.
      rewrite Hf. split; [by rewrite <- app_assoc|done].
Qed.

Lemma ctor_loop_fail id defs : forall acc s e s',
  ShadowNode.ctor_loop tn cmf cmrtf cbf id defs acc s = inl (e, s') ->
  exists calls rest, s' = s ++ calls /\ flat_map (channel_events tn id) defs = calls ++ rest /\ rest <> [].
Proof.
  induction defs as [|d defs IH]; intros acc s e s' H; cbn [ShadowNode.ctor_loop] in H.
  - discriminate.
  - unfold bind in H. cbn [flat_map].
    destruct (ShadowNode.build_channel tn cmf cmrtf cbf id d s) as [[e1 s1]|[ch s1]] eqn:Hb.
    + inversion H; subst. apply build_channel_fail in Hb as (calls & rest & -> & Hf & Hr).
      exists calls, (rest ++ flat_map (channel_events tn id) defs). rewrite Hf.
      split; [done|]. split; [by rewrite app_assoc|]. by destruct rest.
    + apply build_channel_run in Hb as [_ ->]. apply IH in H as (calls & rest & -> & Hf & Hr).
      exists (channel_events tn id d ++ calls), rest. rewrite Hf.
      split; [by rewrite app_assoc|]. split; [by rewrite app_assoc|done].
Qed.

End Failures.

(** Extra: a successful construction makes one [createManual] call per
    format, one [createMultiRenderTarget] call per definition whose format
    list does not have exactly one entry, one [bindSurface] call per format
    of those definitions, and one [initializePasses] call. *)
Theorem ctor_backend_call_counts tn cmf cmrtf cbf id defs s n s' :
  CompositorShadowNode_ctor tn cmf cmrtf cbf id defs s = inr (n, s') ->
  exists calls, s' = s ++ calls /\
    count_calls is_create calls = list_sum (map (fun d => length (formatList d)) defs) /\
    count_calls is_create_mrt calls =
      length (List.filter (fun d => negb (length (formatList d) =? 1)) defs) /\
    count_calls is_bind calls =
      list_sum (map (fun d => if length (formatList d) =? 1 then 0 else length (formatList d)) defs) /\
    count_calls is_init calls = 1.
Proof.
  intros Hrun. apply ctor_run in Hrun as (_ & _ & ->).
  eexists. split; [done|].
  rewrite !count_calls_app, !count_calls_flat_map, !count_calls_single. simpl.
  split; [|split; [|split]].
  - rewrite Nat.add_0_r. f_equal. apply map_ext. intros d. apply channel_event_counts.
  - rewrite Nat.add_0_r. erewrite map_ext by (intros d; apply channel_event_counts).
    clear. induction defs as [|d defs IH]; [done|]. simpl.
    destruct (length (formatList d) =? 1); simpl; lia.
  - rewrite Nat.add_0_r. f_equal. apply map_ext. intros d. apply channel_event_counts.
  - erewrite map_ext by (intros d; apply channel_event_counts).
    clear. induction defs; simpl; lia.
Qed.

Lemma ctor_backend_call_counts_witness :
  exists n s',
    CompositorShadowNode_ctor sample_textureName never_fails_tex never_fails_mrt never_fails_bind 3 sample_defs [] = inr (n, s') /\
    exists calls, s' = calls /\ count_calls is_create calls = 5 /\ count_calls is_create_mrt calls = 1 /\
                  count_calls is_bind calls = 3 /\ count_calls is_init calls = 1.
Proof.
  eexists _, _. split; [reflexivity|].
  eapply (ctor_backend_call_counts sample_textureName never_fails_tex never_fails_mrt never_fails_bind 3 sample_defs []).
  reflexivity.
Defined.


Lemma map_rq_format_concat (defs : list ShadowTextureDefinition) (g : ShadowTextureDefinition -> list TexRequest) :
  (forall d, map rq_format (g d) = formatList d) ->
  map rq_format (flat_map g defs) = flat_map formatList defs.
Proof.
  intros H. induction defs as [|d defs IH]; [done|]. cbn [flat_map]. by rewrite map_app, H, IH.
Qed.

Lemma In_channel_events_log tn id defs s chans e d :
  In d defs -> In e (channel_events tn id d) ->
  In e (s ++ flat_map (channel_events tn id) defs ++ [EvInitializePasses chans]).
Proof.
  intros Hd He. apply in_or_app. right. apply in_or_app. left. apply in_flat_map. eauto.
Qed.

(** Extra: in a successful construction the texture requests sent to
    [createManual] are, definition by definition and in order, requests for
    that definition's formats, each with its width, height, FSAA setting and
    the gamma flag obtained from its [hwGammaWrite]. *)
Theorem ctor_texture_requests tn cmf cmrtf cbf id defs s n s' :
  CompositorShadowNode_ctor tn cmf cmrtf cbf id defs s = inr (n, s') ->
  exists calls rqss, s' = s ++ calls /\ created_requests calls = concat rqss /\
    map rq_format (created_requests calls) = flat_map formatList defs /\
    Forall2 (fun d rqs => map rq_format rqs = formatList d /\ Forall (request_matches d) rqs) defs rqss.
Proof.
  intros Hrun. apply ctor_run in Hrun as (_ & _ & ->).
  exists (flat_map (channel_events tn id) defs ++ [EvInitializePasses (mLocalTextures n)]),
    (map (fun d => created_requests (channel_events tn id d)) defs).
  rewrite created_requests_app, created_requests_flat_map. simpl. rewrite app_nil_r.
  split; [done|]. split; [by rewrite flat_map_concat_map|]. split.
  - apply map_rq_format_concat. intros d. apply channel_requests.
  - apply Forall2_map_r. intros d. split; apply channel_requests.
Qed.

Lemma ctor_texture_requests_witness :
  exists n s',
    CompositorShadowNode_ctor sample_textureName never_fails_tex never_fails_mrt never_fails_bind 3 sample_defs [] = inr (n, s') /\
    exists calls rqss, s' = [] ++ calls /\ created_requests calls = concat rqss /\
      map rq_format (created_requests calls) = [1; 1; 2; 3; 4] /\
      Forall2 (fun d rqs => map rq_format rqs = formatList d /\ Forall (request_matches d) rqs) sample_defs rqss.
Proof.
  eexists _, _. split; [reflexivity|].
  eapply (ctor_texture_requests sample_textureName never_fails_tex never_fails_mrt never_fails_bind 3 sample_defs []).
  reflexivity.
Defined.

(** Extra: in a successful construction each channel's textures are, in
    order, exactly the textures requested for its definition, and they carry
    pairwise distinct names. *)
Theorem ctor_texture_names tn cmf cmrtf cbf id defs s n s' :
  CompositorShadowNode_ctor tn cmf cmrtf cbf id defs s = inr (n, s') ->
  exists calls rqss, s' = s ++ calls /\ created_requests calls = concat rqss /\
    Forall2 (fun ch rqs => map rq_name rqs = map tex_name (textures ch) /\ List.NoDup (map rq_name rqs))
      (mLocalTextures n) rqss.
Proof.
  intros Hrun. apply ctor_run in Hrun as (_ & Hch & ->).
  exists (flat_map (channel_events tn id) defs ++ [EvInitializePasses (mLocalTextures n)]),
    (map (fun d => created_requests (channel_events tn id d)) defs).
  rewrite created_requests_app, created_requests_flat_map. simpl. rewrite app_nil_r.
  split; [done|]. split; [by rewrite flat_map_concat_map|].
  rewrite Hch. apply Forall2_map_both. intros d.
  destruct (channel_requests tn id d) as (_ & _ & Hn & Hd). rewrite Hn. by split.
Qed.

Lemma ctor_texture_names_witness :
  exists n s',
    CompositorShadowNode_ctor sample_textureName never_fails_tex never_fails_mrt never_fails_bind 3 sample_defs [] = inr (n, s') /\
    exists calls rqss, s' = [] ++ calls /\ created_requests calls = concat rqss /\
      Forall2 (fun ch rqs => map rq_name rqs = map tex_name (textures ch) /\ List.NoDup (map rq_name rqs))
        (mLocalTextures n) rqss.
Proof.
  eexists _, _. split; [reflexivity|].
  eapply (ctor_texture_names sample_textureName never_fails_tex never_fails_mrt never_fails_bind 3 sample_defs []).
  reflexivity.
Defined.

(** Extra: when a backend call fails, the calls made so far are a strict
    prefix of the calls of a full construction: what was already created is
    not released, later definitions are not processed, and
    [initializePasses] is never called. *)
Theorem ctor_failure_keeps_prefix tn cmf cmrtf cbf id defs s e s' :
  CompositorShadowNode_ctor tn cmf cmrtf cbf id defs s = inl (e, s') ->
  exists calls rest, s' = s ++ calls /\ flat_map (channel_events tn id) defs = calls ++ rest /\ rest <> [] /\
    count_calls is_init calls = 0.
Proof.
  intros H. apply ctor_fail_from_loop in H.
  apply ctor_loop_fail in H as (calls & rest & -> & Hf & Hr).
  exists calls, rest. do 3 (split; [done|]).
  assert (Hz : count_calls is_init (calls ++ rest) = 0).
  { rewrite <- Hf, count_calls_flat_map. clear. induction defs as [|d defs IH]; [done|].
    simpl. rewrite IH, Nat.add_0_r. apply channel_event_counts. }
  rewrite count_calls_app in Hz. lia.
Qed.

Lemma ctor_failure_keeps_prefix_witness :
  exists e s',
    CompositorShadowNode_ctor sample_textureName (fails_on_name "shadowB/31") never_fails_mrt never_fails_bind 3 sample_defs []
      = inl (e, s') /\
    exists calls rest, s' = [] ++ calls /\
      flat_map (channel_events sample_textureName 3) sample_defs = calls ++ rest /\ rest <> [] /\
      count_calls is_init calls = 0.
Proof.
  eexists _, _. split; [reflexivity|].
  eapply (ctor_failure_keeps_prefix sample_textureName (fails_on_name "shadowB/31") never_fails_mrt never_fails_bind 3 sample_defs []).
  reflexivity.
Defined.

(** Extra: after a successful construction every texture of a channel was
    requested from [createManual] under its name, every multiple render
    target of a channel was created with [createMultiRenderTarget], and a
    channel whose target is a single texture holds just that texture. *)
Theorem ctor_channels_reference_created_resources tn cmf cmrtf cbf id defs s n s' :
  CompositorShadowNode_ctor tn cmf cmrtf cbf id defs s = inr (n, s') ->
  forall ch, In ch (mLocalTextures n) ->
    (forall t, In t (textures ch) -> exists rq, In (EvCreateManual rq) s' /\ rq_name rq = tex_name t) /\
    (forall m, target ch = RT_MRT m -> In (EvCreateMultiRenderTarget m) s') /\
    (forall t, target ch = RT_Texture t -> textures ch = [t]).
Proof.
  intros Hrun ch Hin. apply ctor_run in Hrun as (_ & Hch & ->).
  rewrite Hch in Hin. apply in_map_iff in Hin as (d & <- & Hd).
  split; [|split].
  - intros t Ht. destruct (channel_requests tn id d) as (_ & _ & Hn & _).
    assert (Hm : In (tex_name t) (map rq_name (created_requests (channel_events tn id d)))).
    { rewrite Hn. by apply in_map. }
    apply in_map_iff in Hm as (rq & Hrq & Hi). exists rq. split; [|done].
    apply In_channel_events_log with d; [done|]. by apply in_created_requests.
  - intros m. unfold channel_of. destruct (length (formatList d) =? 1) eqn:E; simpl; [discriminate|].
    intros [= <-]. apply In_channel_events_log with d; [done|].
    unfold channel_events. rewrite E. by left.
  - intros t. unfold channel_of. destruct (length (formatList d) =? 1); simpl; [|discriminate].
    by intros [= <-].
Qed.

Lemma ctor_channels_reference_created_resources_witness :
  exists n s',
    CompositorShadowNode_ctor sample_textureName never_fails_tex never_fails_mrt never_fails_bind 3 sample_defs [] = inr (n, s') /\
    forall ch, In ch (mLocalTextures n) ->
      (forall t, In t (textures ch) -> exists rq, In (EvCreateManual rq) s' /\ rq_name rq = tex_name t) /\
      (forall m, target ch = RT_MRT m -> In (EvCreateMultiRenderTarget m) s') /\
      (forall t, target ch = RT_Texture t -> textures ch = [t]).
Proof.
  eexists _, _. split; [reflexivity|].
  eapply (ctor_channels_reference_created_resources sample_textureName never_fails_tex never_fails_mrt never_fails_bind 3 sample_defs []).
  reflexivity.
Defined.

(** Extra: with no shadow texture definitions the construction makes no
    backend call other than one [initializePasses] with no channels, and
    the node has no local textures. *)
Theorem ctor_no_definitions tn cmf cmrtf cbf id s :
  CompositorShadowNode_ctor tn cmf cmrtf cbf id [] s =
    inr ({| mId := id; mLocalTextures := [] |}, s ++ [EvInitializePasses []]).
Proof. reflexivity. Qed.

End ShadowNodeExtras.

Module RegistryExtras.
Import Registry.
Import Samples.
Import RegistryFacts.
#[local] Open Scope Z_scope.

Lemma add_source_name_ok r nm index ts hn r' :
  0 <= index < 2 ^ 30 ->
  addTextureSourceName r nm index ts = inr (hn, r') ->
  hn = nm /\ getTextureSource r' nm = inr (index, ts) /\
  (forall nm', nm' <> nm -> getTextureSource r' nm' = getTextureSource r nm') /\
  mLocalTextureDefs r' = mLocalTextureDefs r /\
  mDefaultLocalTextureSource r' = mDefaultLocalTextureSource r.
Proof.
  intros Hi. unfold addTextureSourceName.
  destruct (mNameToChannelMap r !! nm); [discriminate|].
  destruct (violates_global_prefix nm ts); [discriminate|].
  intros [= <- <-]. split; [done|]. split.
  - unfold getTextureSource. simpl. rewrite lookup_insert_eq. by rewrite decode_encode_in_range.
  - split; [|done]. intros nm' Hne. unfold getTextureSource. simpl.
    by rewrite lookup_insert_ne by congruence.
Qed.

(** Extra: after a successful [addTextureSourceName] with an index below
    2^30, [getTextureSource] returns that index and source for the name,
    returns what it returned before for every other name, and the stored
    definitions and default source are unchanged (bodies modelled from the
    spec). *)
Theorem getTextureSource_after_addTextureSourceName r nm index ts hn r' :
  0 <= index < 2 ^ 30 ->
  addTextureSourceName r nm index ts = inr (hn, r') ->
  hn = nm /\ getTextureSource r' nm = inr (index, ts) /\
  (forall nm', nm' <> nm -> getTextureSource r' nm' = getTextureSource r nm') /\
  mLocalTextureDefs r' = mLocalTextureDefs r /\
  mDefaultLocalTextureSource r' = mDefaultLocalTextureSource r.
Proof. apply add_source_name_ok. Qed.

Lemma getTextureSource_after_addTextureSourceName_witness :
  (0 <= 5 < 2 ^ 30) /\
  exists r', addTextureSourceName node_registry "rt0" 5 TEXTURE_LOCAL = inr ("rt0", r') /\
    getTextureSource r' "rt0" = inr (5, TEXTURE_LOCAL) /\
    (forall nm', nm' <> "rt0" -> getTextureSource r' nm' = getTextureSource node_registry nm') /\
    mLocalTextureDefs r' = mLocalTextureDefs node_registry /\
    mDefaultLocalTextureSource r' = mDefaultLocalTextureSource node_registry.
Proof.
  split; [lia|]. eexists. split; [reflexivity|].
  refine (proj2 (getTextureSource_after_addTextureSourceName node_registry "rt0" 5 TEXTURE_LOCAL "rt0" _ _ _)).
  - lia.
  - reflexivity.
Defined.

(** Extra: a successful [addTextureDefinition] returns the previous number
    of definitions as the new definition's index, appends a definition with
    the header's default values under that index, and binds the name to that
    index with the registry's default source (bodies modelled from the
    spec). *)
Theorem addTextureDefinition_appends r nm k r' :
  Z.of_nat (length (mLocalTextureDefs r)) < 2 ^ 30 ->
  addTextureDefinition r nm = inr (k, r') ->
  k = length (mLocalTextureDefs r) /\
  mLocalTextureDefs r' = mLocalTextureDefs r ++ [mkTextureDefinition nm] /\
  nth_error (mLocalTextureDefs r') k = Some (mkTextureDefinition nm) /\
  getTextureSource r' nm = inr (Z.of_nat k, mDefaultLocalTextureSource r) /\
  mDefaultLocalTextureSource r' = mDefaultLocalTextureSource r.
Proof.
  intros Hl. unfold addTextureDefinition.
  destruct (addTextureSourceName r nm _ _) as [e|[hn r1]] eqn:E; [discriminate|].
  intros [= <- <-].
  apply add_source_name_ok in E as (-> & Hget & _ & Hdefs & Hdef); [|lia].
  simpl. rewrite Hdefs, Hdef. split; [done|]. split; [done|]. split; [|split; [|done]].
  - rewrite nth_error_app2 by lia. by rewrite Nat.sub_diag.
  - unfold getTextureSource in *. simpl. exact Hget.
Qed.

Lemma addTextureDefinition_appends_witness :
  Z.of_nat (length (mLocalTextureDefs node_registry)) < 2 ^ 30 /\
  exists k r', addTextureDefinition node_registry "rt0" = inr (k, r') /\
    k = length (mLocalTextureDefs node_registry) /\
    mLocalTextureDefs r' = mLocalTextureDefs node_registry ++ [mkTextureDefinition "rt0"] /\
    nth_error (mLocalTextureDefs r') k = Some (mkTextureDefinition "rt0") /\
    getTextureSource r' "rt0" = inr (Z.of_nat k, mDefaultLocalTextureSource node_registry) /\
    mDefaultLocalTextureSource r' = mDefaultLocalTextureSource node_registry.
Proof.
  split; [simpl; lia|]. eexists _, _. split; [reflexivity|].
  apply (addTextureDefinition_appends node_registry "rt0").
  - simpl; lia.
  - reflexivity.
Defined.

End RegistryExtras.
